(** * CHORD-DHT: ring arithmetic of [pkg/hash/hash.go]

    A shallow embedding of the identifier arithmetic of the Chord node
    (package [hash]) together with the parts of the Go standard library
    it calls ([crypto/sha1], [math/big], [strconv]), followed by the
    properties of the 160-bit identifier ring. *)

From Stdlib Require Import ZArith List Bool Lia.
From Stdlib Require Import Strings.String Strings.Ascii Strings.Byte.
Import ListNotations.
Local Open Scope Z_scope.

(** ** Bytes *)

Definition byte_val (b : byte) : Z := Z.of_N (Byte.to_N b).

Definition byte_of_Z (z : Z) : byte :=
  match Byte.of_N (Z.to_N (z mod 256)) with
  | Some b => b
  | None => x00
  end.

(** ** [crypto/sha1]: the SHA-1 digest (FIPS 180-4) *)

Module SHA1.

Definition mask32 : Z := 0xFFFFFFFF.
Definition w32 (x : Z) : Z := Z.land x mask32.
Definition add32 (x y : Z) : Z := w32 (x + y).
Definition not32 (x : Z) : Z := Z.lxor (w32 x) mask32.
Definition rotl (n x : Z) : Z :=
  w32 (Z.lor (Z.shiftl x n) (Z.shiftr (w32 x) (32 - n))).

(** Big-endian word of four bytes, and back. *)
Definition be32 (b0 b1 b2 b3 : byte) : Z :=
  Z.lor (Z.shiftl (byte_val b0) 24)
    (Z.lor (Z.shiftl (byte_val b1) 16)
       (Z.lor (Z.shiftl (byte_val b2) 8) (byte_val b3))).

Definition word_bytes (w : Z) : list byte :=
  [byte_of_Z (Z.shiftr w 24); byte_of_Z (Z.shiftr w 16);
   byte_of_Z (Z.shiftr w 8); byte_of_Z w].

Fixpoint words_of (bs : list byte) : list Z :=
  match bs with
  | b0 :: b1 :: b2 :: b3 :: rest => be32 b0 b1 b2 b3 :: words_of rest
  | _ => []
  end.

(** Padding: a one bit, zeros up to 56 mod 64, the bit length on 8 bytes. *)
Definition len64_bytes (n : Z) : list byte :=
  map (fun k => byte_of_Z (Z.shiftr n (8 * k))) [7; 6; 5; 4; 3; 2; 1; 0].

Definition pad (msg : list byte) : list byte :=
  let n := Z.of_nat (List.length msg) in
  msg ++ [x80] ++ repeat x00 (Z.to_nat ((55 - n) mod 64)) ++ len64_bytes (8 * n).

(** Cut a byte string into blocks of 64 bytes. *)
Fixpoint blocks_from (cur : list byte) (l : list byte) : list (list byte) :=
  match l with
  | [] => match cur with [] => [] | _ => [rev cur] end
  | b :: l' =>
      let cur' := b :: cur in
      if Nat.eqb (List.length cur') 64
      then rev cur' :: blocks_from [] l'
      else blocks_from cur' l'
  end.

Definition blocks (l : list byte) : list (list byte) := blocks_from [] l.

(** Message schedule; the list is kept newest word first. *)
Definition extend (wrev : list Z) : list Z :=
  rotl 1 (Z.lxor (Z.lxor (nth 2 wrev 0) (nth 7 wrev 0))
                 (Z.lxor (nth 13 wrev 0) (nth 15 wrev 0))) :: wrev.

Definition schedule (block : list byte) : list Z :=
  rev (Nat.iter 64 extend (rev (words_of block))).

Definition state : Type := (Z * Z * Z * Z * Z)%type.

Definition init : state :=
  (0x67452301, 0xEFCDAB89, 0x98BADCFE, 0x10325476, 0xC3D2E1F0).

Definition f (t : nat) (b c d : Z) : Z :=
  if Nat.ltb t 20 then Z.lor (Z.land b c) (Z.land (not32 b) d)
  else if Nat.ltb t 40 then Z.lxor (Z.lxor b c) d
  else if Nat.ltb t 60 then Z.lor (Z.lor (Z.land b c) (Z.land b d)) (Z.land c d)
  else Z.lxor (Z.lxor b c) d.

Definition K (t : nat) : Z :=
  if Nat.ltb t 20 then 0x5A827999
  else if Nat.ltb t 40 then 0x6ED9EBA1
  else if Nat.ltb t 60 then 0x8F1BBCDC
  else 0xCA62C1D6.

Definition round (s : state) (tw : nat * Z) : state :=
  let '(a, b, c, d, e) := s in
  let '(t, w) := tw in
  let temp := add32 (add32 (add32 (add32 (rotl 5 a) (f t b c d)) e) (K t)) w in
  (temp, a, rotl 30 b, c, d).

Definition compress (h : state) (block : list byte) : state :=
  let w := schedule block in
  let '(a, b, c, d, e) := fold_left round (combine (seq 0 80) w) h in
  let '(h0, h1, h2, h3, h4) := h in
  (add32 h0 a, add32 h1 b, add32 h2 c, add32 h3 d, add32 h4 e).

Definition digest_bytes (s : state) : list byte :=
  let '(h0, h1, h2, h3, h4) := s in
  word_bytes h0 ++ word_bytes h1 ++ word_bytes h2 ++ word_bytes h3 ++ word_bytes h4.

(** [sha1.New(); Write(msg); Sum(nil)] *)
Definition Sum (msg : list byte) : list byte :=
  digest_bytes (fold_left compress (blocks (pad msg)) init).

End SHA1.

(** ** [math/big] and [strconv]: the conversions the package calls *)

Module big.

(** [new(big.Int).SetBytes(buf)]: [buf] read as a big-endian unsigned
    integer. *)
Definition SetBytes (buf : list byte) : Z :=
  fold_left (fun acc b => acc * 256 + byte_val b) buf 0.

(** Value of one character as a digit: ['0'..'9'], ['a'..'z'] and
    ['A'..'Z'] (bases up to 36 read both letter cases alike). *)
Definition digit_val (c : ascii) : option Z :=
  let n := Z.of_N (N_of_ascii c) in
  if (48 <=? n) && (n <=? 57) then Some (n - 48)
  else if (97 <=? n) && (n <=? 122) then Some (n - 97 + 10)
  else if (65 <=? n) && (n <=? 90) then Some (n - 65 + 10)
  else None.

(** Every character of [s] has to be a digit of [base]. *)
Fixpoint scan_digits (base acc : Z) (s : string) : option Z :=
  match s with
  | EmptyString => Some acc
  | String c s' =>
      match digit_val c with
      | Some d => if d <? base then scan_digits base (acc * base + d) s' else None
      | None => None
      end
  end.

(** An optional sign in front of the digits. *)
Definition scan_sign (s : string) : bool * string :=
  match s with
  | String "-"%char r => (true, r)
  | String "+"%char r => (false, r)
  | _ => (false, s)
  end.

(** [z.SetString(s, base)] for an explicit base between 2 and 36: an
    optional sign, then one digit or more, and nothing else.  [None]
    is the failure [ok == false]. *)
Definition SetString (s : string) (base : Z) : option Z :=
  let '(neg, digits) := scan_sign s in
  match digits with
  | EmptyString => None
  | _ =>
      match scan_digits base 0 digits with
      | Some v => Some (if neg then - v else v)
      | None => None
      end
  end.

(** The digits of [n >= 0] in a base, most significant first; a number
    of [k] bits needs no more than [k] divisions. *)
Fixpoint digits_acc (base : Z) (fuel : nat) (n : Z) (acc : list Z) : list Z :=
  match fuel with
  | O => acc
  | S fuel' =>
      if n =? 0 then acc
      else digits_acc base fuel' (n / base) (n mod base :: acc)
  end.

Definition digits (base n : Z) : list Z :=
  digits_acc base (Z.to_nat (Z.log2 n + 1)) n [].

(** The number that a list of digits stands for, read after [acc]. *)
Definition from_digits (base : Z) (ds : list Z) (acc : Z) : Z :=
  fold_left (fun a d => a * base + d) ds acc.

(** The character of a digit: ['0'..'9'], then lower-case letters. *)
Definition digit_char (d : Z) : ascii :=
  if d <? 10 then ascii_of_N (Z.to_N (48 + d))
  else ascii_of_N (Z.to_N (97 + (d - 10))).

(** [x.Text(base)]: ["0"] for zero, a minus sign in front of a negative
    number, no leading zeros. *)
Definition Text (x : Z) (base : Z) : string :=
  if x =? 0 then "0"%string
  else
    let s := string_of_list_ascii (map digit_char (digits base (Z.abs x))) in
    if x <? 0 then String "-"%char s else s.

(** [x.Bytes()]: the absolute value as big-endian bytes, none for zero. *)
Definition Bytes (x : Z) : list byte :=
  map byte_of_Z (digits 256 (Z.abs x)).

End big.

Module strconv.

(** [strconv.ParseInt(s, base, 64)] for an explicit base: the syntax of
    [big.SetString], and a range error outside of [int64].  [None] is
    [err != nil]. *)
Definition ParseInt (s : string) (base : Z) : option Z :=
  let '(neg, digits) := big.scan_sign s in
  match digits with
  | EmptyString => None
  | _ =>
      match big.scan_digits base 0 digits with
      | Some un =>
          let cutoff := 2 ^ 63 in
          if negb neg && (cutoff <=? un) then None
          else if neg && (cutoff <? un) then None
          else Some (if neg then - un else un)
      | None => None
      end
  end.

End strconv.

(** ** Package [hash] *)

(** [M] is the number of bits of the key space, [MaxNodes] the size of
    the ring. *)
Definition M : Z := 160.
Definition MaxNodes : Z := Z.shiftl 1 M.

(** [type Hash struct { value *big.Int }].  A [*Hash] that may be [nil]
    is an [option Hash]. *)
Record Hash : Type := mkHash { value : Z }.

(** Go's [error]: the message. *)
Definition error : Type := string.

(** [NewHash]: [nil] stands for zero; the value is reduced into the ring
    ([big.Int.Mod] is the Euclidean modulus) and copied. *)
Definition NewHash (value : option Z) : Hash :=
  let value := match value with None => 0 | Some v => v end in
  let maxValue := Z.shiftl 1 M in
  mkHash (value mod maxValue).

(** [NewHash] reduces its argument in place before it copies it: what the
    caller's [big.Int] holds afterwards. *)
Definition NewHash_arg_after (value : Z) : Z := value mod Z.shiftl 1 M.

Definition NewHashFromString (s : string) : Hash :=
  let hashBytes := SHA1.Sum (list_byte_of_string s) in
  let value := big.SetBytes hashBytes in
  NewHash (Some value).

Definition NewHashFromHex (hexStr : string) : option Hash * option error :=
  match big.SetString hexStr 16 with
  | None => (None, Some ("invalid hex string: " ++ hexStr)%string)
  | Some value => (Some (NewHash (Some value)), None)
  end.

Definition BigInt (h : Hash) : Z := value h.

Definition Add (h : Hash) (v : Z) : Hash :=
  let result := value h + v in
  NewHash (Some result).

(** [i] is a Go [int]; the guard keeps the shift amount in [0, M). *)
Definition AddPowerOfTwo (h : Hash) (i : Z) : Hash :=
  if (i <? 0) || (i >=? M) then NewHash (Some (value h))
  else
    let powerOfTwo := Z.shiftl 1 i in
    Add h powerOfTwo.

Definition Equal (h : Hash) (other : option Hash) : bool :=
  match other with
  | None => false
  | Some other =>
      match value h ?= value other with Eq => true | _ => false end
  end.

Definition Less (h : Hash) (other : option Hash) : bool :=
  match other with
  | None => false
  | Some other =>
      match value h ?= value other with Lt => true | _ => false end
  end.

Definition Distance (h : Hash) (target : option Hash) : Z :=
  match target with
  | None => 0
  | Some target =>
      let distance := value target - value h in
      let maxValue := Z.shiftl 1 M in
      if Z.sgn distance <? 0 then distance + maxValue else distance
  end.

Definition InRange (h : Hash) (start end_ : option Hash) : bool :=
  match start, end_ with
  | Some s, Some _ =>
      if Equal s end_ then negb (Equal h start)
      else if Less s end_ then Less s (Some h) && (Less h end_ || Equal h end_)
      else Less s (Some h) || Less h end_ || Equal h end_
  | _, _ => false
  end.

Definition InRangeExclusive (h : Hash) (start end_ : option Hash) : bool :=
  match start, end_ with
  | Some s, Some _ =>
      if Equal s end_ then false
      else if Less s end_ then Less s (Some h) && Less h end_
      else Less s (Some h) || Less h end_
  | _, _ => false
  end.

Definition Copy (h : Hash) : Hash := NewHash (Some (value h)).

Definition GenerateID (address : string) : Hash := NewHashFromString address.

Definition FingerStart (nodeID : Hash) (i : Z) : Hash :=
  if (i <=? 0) || (i >? M) then Copy nodeID
  else AddPowerOfTwo nodeID (i - 1).

Definition ParseNodeID (idStr : string) : option Hash * option error :=
  match NewHashFromHex idStr with
  | (hash, None) => (hash, None)
  | (_, Some _) =>
      match strconv.ParseInt idStr 10 with
      | Some value => (Some (NewHash (Some value)), None)
      | None => (Some (NewHashFromString idStr), None)
      end
  end.

(** [(h *Hash) String] and [(h *Hash) Bytes]. *)
Definition Hash_String (h : Hash) : string := big.Text (value h) 16.

Definition Hash_Bytes (h : Hash) : list byte := big.Bytes (value h).

(** ** Package [chord]: the node state that [Join] writes *)

Module chord.

Record NodeInfo : Type := mkNodeInfo { ID : Hash; Address : string }.

Definition FingerTableSize : nat := 160.

Record Node : Type := mkNode {
  address : string;
  id : Hash;
  successor : option NodeInfo;
  predecessor : option NodeInfo;
  fingers : list NodeInfo;
  nextFinger : Z;
  running : bool
}.

(** The node's own descriptor. *)
Definition self (n : Node) : NodeInfo :=
  {| ID := id n; Address := address n |}.

Section Join.

(** The peer client's [find_successor(key)] on the node at an
    address; [None] when the call fails. *)
Variable find_successor_at : string -> Hash -> option NodeInfo.

(** Modelled from the spec: [Join] of [internal/chord], whose source
    file is not part of the sources at hand (only its tests are).
    With an empty bootstrap it creates the ring: the successor is the
    node itself, the predecessor is none and every finger entry is
    the node itself.  Otherwise the bootstrap's answer to
    [find_successor(self.id)] becomes the successor and the
    predecessor is none; an unreachable bootstrap is reported to the
    caller.  Maintenance starts in both cases. *)
Definition Join (n : Node) (bootstrap : string) : Node * option error :=
  match bootstrap with
  | EmptyString =>
      ({| address := address n; id := id n;
          successor := Some (self n);
          predecessor := None;
          fingers := repeat (self n) FingerTableSize;
          nextFinger := nextFinger n;
          running := true |}, None)
  | _ =>
      match find_successor_at bootstrap (id n) with
      | Some s =>
          ({| address := address n; id := id n;
              successor := Some s;
              predecessor := None;
              fingers := fingers n;
              nextFinger := nextFinger n;
              running := true |}, None)
      | None => (n, Some ("failed to join via " ++ bootstrap)%string)
      end
  end.

End Join.

End chord.

(** ** The callers of the package: node start-up and the test helpers *)

(** What a piece of Go code does: it returns, it panics, or it stops the
    process with [log.Fatal]. *)
Inductive outcome (A : Type) : Type :=
| Returned (a : A)
| Panicked
| Fatal (msg : string).

Arguments Returned {A} a.
Arguments Panicked {A}.
Arguments Fatal {A} msg.

(** The slice expression [s[:n]] of a string: a run-time panic when [n]
    is beyond the length. *)
Definition slice_to (s : string) (n : nat) : option string :=
  if Nat.leb n (String.length s) then Some (substring 0 n s) else None.

(** [getNodeIDString] of the integration tests, for a descriptor whose
    [ID] is set. *)
Definition getNodeIDString (nodeInfo : option chord.NodeInfo) : outcome string :=
  match nodeInfo with
  | None => Returned "nil"%string
  | Some nodeInfo =>
      match slice_to (Hash_String (chord.ID nodeInfo)) 8 with
      | Some s => Returned s
      | None => Panicked
      end
  end.

(** The start of [main] of the node command, up to its first log line:
    the address that is advertised, the identifier (parsed from [--id]
    or derived from the advertised address) and the 16 characters of
    the identifier that are logged. *)
Definition main_identity (addr publicAddr nodeID : string)
  : outcome (Hash * string * string) :=
  if String.eqb addr "" then Fatal "Node address (--addr) is required"
  else
    let advertiseAddr :=
      if negb (String.eqb publicAddr "") then publicAddr else addr in
    let '(id, err) :=
      if negb (String.eqb nodeID "") then ParseNodeID nodeID
      else (Some (GenerateID advertiseAddr), None) in
    match err with
    | Some e => Fatal ("Invalid node ID: " ++ e)
    | None =>
        match id with
        | None => Panicked
        | Some id =>
            match slice_to (Hash_String id) 16 with
            | Some logged => Returned (id, advertiseAddr, logged)
            | None => Panicked
            end
        end
    end.

(** * Properties *)

(** An identifier: an unsigned integer below [2^160]. *)
Definition valid (h : Hash) : Prop := 0 <= value h < 2 ^ 160.

Definition valid_opt (o : option Hash) : Prop :=
  match o with Some h => valid h | None => True end.

Lemma shiftl_M : Z.shiftl 1 M = 2 ^ 160.
Proof. reflexivity. Qed.

Lemma ring_pos : 0 < 2 ^ 160.
Proof. reflexivity. Qed.

Lemma NewHash_value (v : Z) : value (NewHash (Some v)) = v mod 2 ^ 160.
Proof. unfold NewHash. rewrite shiftl_M. reflexivity. Qed.

Lemma NewHash_valid (o : option Z) : valid (NewHash o).
Proof.
  unfold valid, NewHash. rewrite shiftl_M. cbn [value].
  apply Z.mod_pos_bound, ring_pos.
Qed.

Lemma NewHash_fix (h : Hash) : valid h -> NewHash (Some (value h)) = h.
Proof.
  intros Hv. destruct h as [v]. unfold valid in Hv. cbn [value] in *.
  unfold NewHash. rewrite shiftl_M. f_equal. apply Z.mod_small. exact Hv.
Qed.

Lemma Equal_true (h o : Hash) : Equal h (Some o) = true <-> value h = value o.
Proof.
  unfold Equal. destruct (Z.compare_spec (value h) (value o)); split;
    intros; try discriminate; try lia; reflexivity.
Qed.

Lemma Equal_refl (h : Hash) : Equal h (Some h) = true.
Proof. apply Equal_true. reflexivity. Qed.

Lemma Less_true (h o : Hash) : Less h (Some o) = true <-> value h < value o.
Proof.
  unfold Less. destruct (Z.compare_spec (value h) (value o)); split;
    intros; try discriminate; try lia; reflexivity.
Qed.

(** Decide every comparison of two identifiers that the goal mentions. *)
Ltac by_order :=
  unfold InRange, InRangeExclusive, Equal, Less;
  repeat match goal with
         | |- context [?u ?= ?v] => destruct (Z.compare_spec u v)
         end;
  cbn [negb andb orb];
  repeat split; intros;
  try discriminate; try reflexivity; try lia.

Lemma Distance_value (a x : Hash) :
  Distance a (Some x) =
  if value x <? value a then value x - value a + 2 ^ 160 else value x - value a.
Proof.
  unfold Distance. rewrite shiftl_M.
  destruct (Z.ltb_spec (Z.sgn (value x - value a)) 0) as [H | H];
    destruct (Z.ltb_spec (value x) (value a)) as [H' | H']; try reflexivity.
  - apply Z.sgn_neg_iff in H. lia.
  - assert (value x - value a < 0) as H'' by lia.
    apply Z.sgn_neg_iff in H''. lia.
Qed.

(** C1. Containment in the closed-right interval [(a, b]]: all of the
    ring but [a] when [a = b], [a < x <= b] when [a < b], and
    [x > a] or [x <= b] when the interval wraps zero ([a > b]); with
    [a = 200] and [b = 10], the identifiers 5 and 10 are inside, 150 and
    200 are not. *)
Theorem InRange_cases (x a b : Hash) :
  (value a = value b ->
     (InRange x (Some a) (Some b) = true <-> value x <> value a)) /\
  (value a < value b ->
     (InRange x (Some a) (Some b) = true <-> value a < value x <= value b)) /\
  (value a > value b ->
     (InRange x (Some a) (Some b) = true <->
      value x > value a \/ value x <= value b)) /\
  InRange (mkHash 5) (Some (mkHash 200)) (Some (mkHash 10)) = true /\
  InRange (mkHash 150) (Some (mkHash 200)) (Some (mkHash 10)) = false /\
  InRange (mkHash 10) (Some (mkHash 200)) (Some (mkHash 10)) = true /\
  InRange (mkHash 200) (Some (mkHash 200)) (Some (mkHash 10)) = false.
Proof.
  repeat apply conj; try reflexivity; intros Hab; by_order.
Qed.

Lemma InRange_cases_witness :
  InRange (mkHash 5) (Some (mkHash 200)) (Some (mkHash 10)) = true <->
  5 > 200 \/ 5 <= 10.
Proof.
  apply (proj1 (proj2 (proj2
           (InRange_cases (mkHash 5) (mkHash 200) (mkHash 10))))).
  simpl. lia.
Defined.

(** C3 as the specification states it fails when [a = b]: the interval
    [(a, a]] leaves [a] out, whereas the right-hand side holds at
    [x = b = a]. *)
Lemma InRange_distance_counterexample :
  let a := mkHash 5 in
  ~ (InRange a (Some a) (Some a) = true <->
     Equal a (Some a) = true \/
     (Equal a (Some a) = false /\ Distance a (Some a) < Distance a (Some a))).
Proof.
  intros a [_ H]. assert (InRange a (Some a) (Some a) = true) as H'.
  { apply H. left. reflexivity. }
  discriminate H'.
Qed.

(** C3, amended. For identifiers of the ring with [a <> b]: [x] is in
    [(a, b]] exactly when [x = b], or [x <> a] and the clockwise distance
    from [a] to [x] is below the one from [a] to [b].  When [a = b], [x]
    is in [(a, b]] exactly when [x <> a]. *)
Theorem InRange_distance (x a b : Hash) :
  valid x -> valid a -> valid b ->
  (value a <> value b ->
   (InRange x (Some a) (Some b) = true <->
    Equal x (Some b) = true \/
    (Equal x (Some a) = false /\ Distance a (Some x) < Distance a (Some b))))
  /\
  (value a = value b ->
   (InRange x (Some a) (Some b) = true <-> Equal x (Some a) = false)).
Proof.
  unfold valid. intros Hx Ha Hb. split; intros Hab.
  - rewrite !Distance_value.
    destruct (Z.ltb_spec (value x) (value a));
      destruct (Z.ltb_spec (value b) (value a));
      by_order; try (left; reflexivity);
      try (right; split; [reflexivity | lia]);
      match goal with
      | H : _ \/ _ |- _ => destruct H as [H | [_ H]]; try discriminate; lia
      end.
  - by_order.
Qed.

Lemma InRange_distance_witness :
  (InRange (mkHash 5) (Some (mkHash 200)) (Some (mkHash 10)) = true <->
   Equal (mkHash 5) (Some (mkHash 10)) = true \/
   (Equal (mkHash 5) (Some (mkHash 200)) = false /\
    Distance (mkHash 200) (Some (mkHash 5)) <
    Distance (mkHash 200) (Some (mkHash 10)))) /\
  (InRange (mkHash 7) (Some (mkHash 5)) (Some (mkHash 5)) = true <->
   Equal (mkHash 7) (Some (mkHash 5)) = false).
Proof.
  split.
  - refine (proj1 (InRange_distance (mkHash 5) (mkHash 200) (mkHash 10)
                     _ _ _) _); unfold valid; simpl; lia.
  - refine (proj2 (InRange_distance (mkHash 7) (mkHash 5) (mkHash 5)
                     _ _ _) _); unfold valid; simpl; lia.
Defined.

(** C4. Containment in the open interval [(a, b)]: nothing when [a = b],
    [a < x < b] when [a < b], and [x > a] or [x < b] when the interval
    wraps zero ([a > b]). *)
Theorem InRangeExclusive_cases (x a b : Hash) :
  (value a = value b -> InRangeExclusive x (Some a) (Some b) = false) /\
  (value a < value b ->
     (InRangeExclusive x (Some a) (Some b) = true <->
      value a < value x < value b)) /\
  (value a > value b ->
     (InRangeExclusive x (Some a) (Some b) = true <->
      value x > value a \/ value x < value b)).
Proof.
  repeat apply conj; intros Hab; by_order.
Qed.

Lemma InRangeExclusive_cases_witness :
  InRangeExclusive (mkHash 7) (Some (mkHash 9)) (Some (mkHash 9)) = false /\
  (InRangeExclusive (mkHash 150) (Some (mkHash 100)) (Some (mkHash 200)) = true
   <-> 100 < 150 < 200) /\
  (InRangeExclusive (mkHash 5) (Some (mkHash 200)) (Some (mkHash 10)) = true
   <-> 5 > 200 \/ 5 < 10).
Proof.
  split; [| split].
  - refine (proj1 (InRangeExclusive_cases (mkHash 7) (mkHash 9) (mkHash 9)) _).
    reflexivity.
  - refine (proj1 (proj2
             (InRangeExclusive_cases (mkHash 150) (mkHash 100) (mkHash 200))) _).
    simpl. lia.
  - refine (proj2 (proj2
             (InRangeExclusive_cases (mkHash 5) (mkHash 200) (mkHash 10))) _).
    simpl. lia.
Defined.

Lemma AddPowerOfTwo_value (h : Hash) (i : Z) :
  0 <= i < 160 -> value (AddPowerOfTwo h i) = (value h + 2 ^ i) mod 2 ^ 160.
Proof.
  intros Hi. unfold AddPowerOfTwo, M.
  destruct (Z.ltb_spec i 0); [lia |].
  destruct (Z.geb_spec i 160); [lia |].
  cbn [orb]. unfold Add. rewrite NewHash_value, Z.shiftl_1_l. reflexivity.
Qed.

(** C5. For an index [1 <= i <= 160] the start of finger [i] of node [n]
    is [(n + 2^(i-1)) mod 2^160]; for node 100 the starts of fingers 1 to
    4 are 101, 102, 104 and 108, and that of finger 8 is 228. *)
Theorem FingerStart_value (n : Hash) (i : Z) :
  1 <= i <= 160 ->
  value (FingerStart n i) = (value n + 2 ^ (i - 1)) mod 2 ^ 160 /\
  map (fun k => value (FingerStart (mkHash 100) k)) [1; 2; 3; 4; 8] =
  [101; 102; 104; 108; 228].
Proof.
  intros Hi. split; [| reflexivity].
  unfold FingerStart, M.
  destruct (Z.leb_spec i 0); [lia |].
  destruct (Z.gtb_spec i 160); [lia |].
  cbn [orb]. apply AddPowerOfTwo_value. lia.
Qed.

Lemma FingerStart_value_witness :
  value (FingerStart (mkHash 100) 8) = (100 + 2 ^ (8 - 1)) mod 2 ^ 160 /\
  map (fun k => value (FingerStart (mkHash 100) k)) [1; 2; 3; 4; 8] =
  [101; 102; 104; 108; 228].
Proof.
  apply (FingerStart_value (mkHash 100) 8). lia.
Defined.

(** *** Digests are 20 bytes, hence below [2^160] *)

Lemma byte_val_range (b : byte) : 0 <= byte_val b < 256.
Proof.
  unfold byte_val. pose proof (Byte.to_N_bounded b) as Hb.
  split; [apply N2Z.is_nonneg | lia].
Qed.

Lemma Sum_length (msg : list byte) : List.length (SHA1.Sum msg) = 20%nat.
Proof.
  unfold SHA1.Sum.
  destruct (fold_left SHA1.compress (SHA1.blocks (SHA1.pad msg)) SHA1.init)
    as [[[[h0 h1] h2] h3] h4].
  reflexivity.
Qed.

Lemma fold_bytes_bound (buf : list byte) :
  forall (acc : Z) (n : nat),
    0 <= acc < 256 ^ Z.of_nat n ->
    0 <= fold_left (fun acc b => acc * 256 + byte_val b) buf acc
      < 256 ^ Z.of_nat (n + List.length buf).
Proof.
  induction buf as [| b buf IH]; intros acc n Hacc.
  - rewrite Nat.add_0_r. exact Hacc.
  - cbn [fold_left List.length].
    replace (n + S (List.length buf))%nat with (S n + List.length buf)%nat by lia.
    apply IH. pose proof (byte_val_range b) as Hb.
    rewrite Nat2Z.inj_succ, Z.pow_succ_r by lia. lia.
Qed.

Lemma SetBytes_bound (buf : list byte) :
  0 <= big.SetBytes buf < 256 ^ Z.of_nat (List.length buf).
Proof.
  unfold big.SetBytes. apply (fold_bytes_bound buf 0 0). simpl. lia.
Qed.

Lemma digest_bound (msg : list byte) :
  0 <= big.SetBytes (SHA1.Sum msg) < 2 ^ 160.
Proof.
  pose proof (SetBytes_bound (SHA1.Sum msg)) as H.
  rewrite Sum_length in H. exact H.
Qed.

(** C6. The identifier of a string is its SHA-1 digest, 20 bytes read as
    a big-endian unsigned integer; that integer is below [2^160], so the
    reduction into the ring leaves it as it is. *)
Theorem GenerateID_digest (s : string) :
  let digest := SHA1.Sum (list_byte_of_string s) in
  List.length digest = 20%nat /\
  0 <= big.SetBytes digest < 2 ^ 160 /\
  big.SetBytes digest mod 2 ^ 160 = big.SetBytes digest /\
  NewHashFromString s = mkHash (big.SetBytes digest) /\
  GenerateID s = mkHash (big.SetBytes digest).
Proof.
  intros digest. pose proof (digest_bound (list_byte_of_string s)) as Hb.
  fold digest in Hb.
  assert (NewHashFromString s = mkHash (big.SetBytes digest)) as Heq.
  { unfold NewHashFromString, NewHash. rewrite shiftl_M. fold digest.
    f_equal. apply Z.mod_small. exact Hb. }
  repeat split; try apply Hb; try exact Heq.
  - apply Sum_length.
  - apply Z.mod_small. exact Hb.
Qed.

(** The digests of the usual test strings. *)
Example GenerateID_abc :
  value (GenerateID "abc") = 0xa9993e364706816aba3e25717850c26c9cd0d89d.
Proof. vm_compute. reflexivity. Qed.

Example GenerateID_empty :
  value (GenerateID "") = 0xda39a3ee5e6b4b0d3255bfef95601890afd80709.
Proof. vm_compute. reflexivity. Qed.

Example GenerateID_two_blocks :
  value (GenerateID "abcdbcdecdefdefgefghfghighijhijkijkljklmklmnlmnomnopnopq")
  = 0x84983e441c3bd26ebaae4aa1f95129e5e54670f1.
Proof. vm_compute. reflexivity. Qed.

(** [NewHash] leaves the reduced value in its argument: after
    [NewHash(maxValue)] the caller's [maxValue] holds 0. *)
Example NewHash_reduces_argument : NewHash_arg_after (Z.shiftl 1 M) = 0.
Proof. reflexivity. Qed.

(** C7. [Add] is addition modulo [2^160]: the result is
    [(h + v) mod 2^160], and the hash made from [2^160] is 0. *)
Theorem Add_mod (h : Hash) (v : Z) :
  Add h v = mkHash ((value h + v) mod 2 ^ 160) /\
  valid (Add h v) /\
  NewHash (Some (2 ^ 160)) = mkHash 0 /\
  Add (mkHash (2 ^ 160 - 1)) 1 = mkHash 0.
Proof.
  repeat match goal with |- _ /\ _ => split end;
    try reflexivity; apply NewHash_valid.
Qed.

(** C8. Every hash that a constructor or an operation of the package
    returns holds an integer in [[0, 2^160)], whatever the integer it is
    made from: negative (the hex string [-1]) or [2^160] and more. *)
Theorem results_in_ring (o : option Z) (s : string) (h : Hash) (v i : Z) :
  valid (NewHash o) /\
  valid (NewHashFromString s) /\
  valid_opt (fst (NewHashFromHex s)) /\
  valid (Add h v) /\
  valid (AddPowerOfTwo h i) /\
  valid (Copy h) /\
  valid (FingerStart h i) /\
  valid_opt (fst (ParseNodeID s)) /\
  NewHashFromHex "-1" = (Some (mkHash (2 ^ 160 - 1)), None) /\
  NewHash (Some (2 ^ 160 + 7)) = mkHash 7.
Proof.
  assert (forall h' j, valid (AddPowerOfTwo h' j)) as Hpow.
  { intros h' j. unfold AddPowerOfTwo, Add.
    destruct ((j <? 0) || (j >=? M)); apply NewHash_valid. }
  assert (valid_opt (fst (NewHashFromHex s))) as Hhex.
  { unfold NewHashFromHex. destruct (big.SetString s 16); cbn [fst valid_opt].
    - apply NewHash_valid.
    - exact I. }
  repeat match goal with |- _ /\ _ => split end;
    try reflexivity; try apply NewHash_valid; try apply Hpow; try exact Hhex.
  - unfold FingerStart. destruct ((i <=? 0) || (i >? M));
      [apply NewHash_valid | apply Hpow].
  - unfold ParseNodeID, NewHashFromHex.
    destruct (big.SetString s 16); cbn [fst valid_opt].
    + apply NewHash_valid.
    + destruct (strconv.ParseInt s 10); cbn [fst valid_opt]; apply NewHash_valid.
Qed.

(** C9. [ParseNodeID] never fails: every string gives an identifier and a
    [nil] error, since a string that is neither hexadecimal nor decimal
    is hashed. *)
Theorem ParseNodeID_total (idStr : string) :
  (exists h : Hash, ParseNodeID idStr = (Some h, None)) /\
  (big.SetString idStr 16 = None -> strconv.ParseInt idStr 10 = None ->
   ParseNodeID idStr = (Some (NewHashFromString idStr), None)).
Proof.
  unfold ParseNodeID, NewHashFromHex. split.
  - destruct (big.SetString idStr 16) as [v |].
    + eexists. reflexivity.
    + destruct (strconv.ParseInt idStr 10) as [v |]; eexists; reflexivity.
  - intros Hhex Hdec. rewrite Hhex, Hdec. reflexivity.
Qed.

Lemma ParseNodeID_total_witness :
  ParseNodeID "hello" = (Some (NewHashFromString "hello"), None).
Proof.
  refine (proj2 (ParseNodeID_total "hello") _ _); reflexivity.
Defined.

(** C10. An index outside of the table is not an error: for an
    identifier [h], [AddPowerOfTwo h i] with [i < 0] or [i >= 160] is
    equal to [h], and [FingerStart h i] with [i <= 0] or [i > 160] is a
    copy of [h]. *)
Theorem index_out_of_range (h : Hash) (i : Z) :
  valid h ->
  (i < 0 \/ i >= 160 ->
   AddPowerOfTwo h i = h /\ Equal (AddPowerOfTwo h i) (Some h) = true) /\
  (i <= 0 \/ i > 160 ->
   FingerStart h i = Copy h /\ FingerStart h i = h /\
   Equal (FingerStart h i) (Some h) = true).
Proof.
  intros Hv. split; intros Hi.
  - assert (AddPowerOfTwo h i = h) as Heq.
    { unfold AddPowerOfTwo, M.
      destruct (Z.ltb_spec i 0); destruct (Z.geb_spec i 160);
        cbn [orb]; try lia; apply NewHash_fix, Hv. }
    rewrite Heq. split; [reflexivity | apply Equal_refl].
  - assert (FingerStart h i = Copy h) as Heq.
    { unfold FingerStart, M.
      destruct (Z.leb_spec i 0); destruct (Z.gtb_spec i 160);
        cbn [orb]; try lia; reflexivity. }
    rewrite Heq. unfold Copy. rewrite (NewHash_fix h Hv).
    repeat split. apply Equal_refl.
Qed.

Lemma index_out_of_range_witness :
  (AddPowerOfTwo (mkHash 100) 160 = mkHash 100 /\
   Equal (AddPowerOfTwo (mkHash 100) 160) (Some (mkHash 100)) = true) /\
  (FingerStart (mkHash 100) 161 = Copy (mkHash 100) /\
   FingerStart (mkHash 100) 161 = mkHash 100 /\
   Equal (FingerStart (mkHash 100) 161) (Some (mkHash 100)) = true).
Proof.
  assert (valid (mkHash 100)) as Hv by (unfold valid; simpl; lia).
  split.
  - refine (proj1 (index_out_of_range (mkHash 100) 160 Hv) _). lia.
  - refine (proj2 (index_out_of_range (mkHash 100) 161 Hv) _). lia.
Defined.

(** C2. Joining with an empty bootstrap creates the ring: the call
    succeeds, the successor is the node's own descriptor, there is no
    predecessor, and the finger table has 160 entries, each of them the
    node itself. *)
Theorem Join_empty_bootstrap
  (find_successor_at : string -> Hash -> option chord.NodeInfo)
  (n : chord.Node) :
  let r := chord.Join find_successor_at n "" in
  snd r = None /\
  chord.self (fst r) = chord.self n /\
  chord.successor (fst r) = Some (chord.self n) /\
  chord.predecessor (fst r) = None /\
  List.length (chord.fingers (fst r)) = 160%nat /\
  Forall (fun finger => finger = chord.self n) (chord.fingers (fst r)).
Proof.
  intros r. subst r. unfold chord.Join.
  cbn [fst snd chord.successor chord.predecessor chord.fingers].
  repeat match goal with |- _ /\ _ => split end; try reflexivity.
  apply Forall_forall. intros finger Hin.
  apply repeat_spec in Hin. exact Hin.
Qed.


(** * Further properties of the ring arithmetic *)

(** Decide every comparison, boolean or three-valued, in the goal. *)
Ltac by_compare :=
  repeat match goal with
         | |- context [?u ?= ?v] => destruct (Z.compare_spec u v)
         | |- context [?u <? ?v] => destruct (Z.ltb_spec u v)
         | |- context [?u <=? ?v] => destruct (Z.leb_spec u v)
         | |- context [?u =? ?v] => destruct (Z.eqb_spec u v)
         end;
  cbn [negb andb orb];
  repeat split; intros;
  try discriminate; try reflexivity; try lia.

Lemma Distance_mod (a x : Hash) :
  valid a -> valid x ->
  Distance a (Some x) = (value x - value a) mod 2 ^ 160.
Proof.
  unfold valid. intros Ha Hx. rewrite Distance_value.
  destruct (Z.ltb_spec (value x) (value a)).
  - apply (Z.mod_unique_pos _ _ (-1)); lia.
  - symmetry. apply Z.mod_small. lia.
Qed.

Lemma Add_value (h : Hash) (v : Z) :
  value (Add h v) = (value h + v) mod 2 ^ 160.
Proof. unfold Add. apply NewHash_value. Qed.

Lemma Add_valid (h : Hash) (v : Z) : valid (Add h v).
Proof. apply NewHash_valid. Qed.

Lemma Hash_eq (h o : Hash) : value h = value o -> h = o.
Proof. destruct h, o. cbn. intros ->. reflexivity. Qed.

(** X1. The clockwise distance between two identifiers is itself below
    [2^160], and adding it to the first identifier gives the second. *)
Theorem Add_Distance (a x : Hash) :
  valid a -> valid x ->
  0 <= Distance a (Some x) < 2 ^ 160 /\ Add a (Distance a (Some x)) = x.
Proof.
  intros Ha Hx. rewrite Distance_mod by assumption. split.
  - apply Z.mod_pos_bound, ring_pos.
  - apply Hash_eq. rewrite Add_value, Zplus_mod_idemp_r.
    replace (value a + (value x - value a)) with (value x) by lia.
    apply Z.mod_small, Hx.
Qed.

Lemma Add_Distance_witness :
  0 <= Distance (mkHash 200) (Some (mkHash 10)) < 2 ^ 160 /\
  Add (mkHash 200) (Distance (mkHash 200) (Some (mkHash 10))) = mkHash 10.
Proof.
  apply (Add_Distance (mkHash 200) (mkHash 10)); unfold valid; simpl; lia.
Defined.

Lemma Distance_mod_Add (h : Hash) (v : Z) :
  valid h -> Distance h (Some (Add h v)) = v mod 2 ^ 160.
Proof.
  intros Hh. rewrite Distance_mod by (assumption || apply Add_valid).
  rewrite Add_value, Zminus_mod_idemp_l. f_equal. lia.
Qed.

(** X2. Walking [v] steps clockwise from an identifier ends at distance
    [v mod 2^160] from it. *)
Theorem Distance_Add (h : Hash) (v : Z) :
  valid h -> Distance h (Some (Add h v)) = v mod 2 ^ 160.
Proof. exact (Distance_mod_Add h v). Qed.

Lemma Distance_Add_witness :
  Distance (mkHash 100) (Some (Add (mkHash 100) (2 ^ 160 + 5))) =
  (2 ^ 160 + 5) mod 2 ^ 160.
Proof.
  apply (Distance_Add (mkHash 100)). unfold valid; simpl; lia.
Defined.

(** X3. The distance is zero exactly between equal identifiers, and the
    two distances between distinct identifiers add up to the whole
    ring. *)
Theorem Distance_opposite (a x : Hash) :
  valid a -> valid x ->
  (Distance a (Some x) = 0 <-> value a = value x) /\
  (value a <> value x ->
   Distance a (Some x) + Distance x (Some a) = 2 ^ 160).
Proof.
  unfold valid. intros Ha Hx. rewrite !Distance_value. by_compare.
Qed.

Lemma Distance_opposite_witness :
  (Distance (mkHash 200) (Some (mkHash 10)) = 0 <-> 200 = 10) /\
  Distance (mkHash 200) (Some (mkHash 10)) +
  Distance (mkHash 10) (Some (mkHash 200)) = 2 ^ 160.
Proof.
  assert (valid (mkHash 200)) as Ha by (unfold valid; simpl; lia).
  assert (valid (mkHash 10)) as Hx by (unfold valid; simpl; lia).
  split.
  - exact (proj1 (Distance_opposite (mkHash 200) (mkHash 10) Ha Hx)).
  - refine (proj2 (Distance_opposite (mkHash 200) (mkHash 10) Ha Hx) _).
    simpl. lia.
Defined.

(** X4. The end points: [a] is never in [(a, b]], [b] is in [(a, b]]
    unless [a = b], and neither of them is in [(a, b)]. *)
Theorem interval_end_points (a b : Hash) :
  InRange a (Some a) (Some b) = false /\
  InRange b (Some a) (Some b) = negb (Equal a (Some b)) /\
  InRangeExclusive a (Some a) (Some b) = false /\
  InRangeExclusive b (Some a) (Some b) = false.
Proof.
  unfold InRange, InRangeExclusive, Equal, Less. by_compare.
Qed.

(** X5. The open interval is inside the closed-right one, and when
    [a <> b] the closed-right interval is the open one with [b] added. *)
Theorem InRange_of_exclusive (x a b : Hash) :
  (InRangeExclusive x (Some a) (Some b) = true ->
   InRange x (Some a) (Some b) = true) /\
  (value a <> value b ->
   InRange x (Some a) (Some b) =
   InRangeExclusive x (Some a) (Some b) || Equal x (Some b)).
Proof.
  unfold InRange, InRangeExclusive, Equal, Less. by_compare.
Qed.

Lemma InRange_of_exclusive_witness :
  InRange (mkHash 5) (Some (mkHash 200)) (Some (mkHash 10)) = true /\
  InRange (mkHash 10) (Some (mkHash 200)) (Some (mkHash 10)) =
  InRangeExclusive (mkHash 10) (Some (mkHash 200)) (Some (mkHash 10))
  || Equal (mkHash 10) (Some (mkHash 10)).
Proof.
  split.
  - refine (proj1 (InRange_of_exclusive (mkHash 5) (mkHash 200) (mkHash 10)) _).
    reflexivity.
  - refine (proj2 (InRange_of_exclusive (mkHash 10) (mkHash 200) (mkHash 10)) _).
    simpl. lia.
Defined.

(** X6. Two distinct identifiers cut the ring in two: every identifier
    is in exactly one of [(a, b]] and [(b, a]]. *)
Theorem InRange_complement (x a b : Hash) :
  value a <> value b ->
  InRange x (Some b) (Some a) = negb (InRange x (Some a) (Some b)).
Proof.
  intros Hab. unfold InRange, Equal, Less. by_compare.
Qed.

Lemma InRange_complement_witness :
  InRange (mkHash 150) (Some (mkHash 10)) (Some (mkHash 200)) =
  negb (InRange (mkHash 150) (Some (mkHash 200)) (Some (mkHash 10))).
Proof.
  apply (InRange_complement (mkHash 150) (mkHash 200) (mkHash 10)).
  simpl. lia.
Defined.

Lemma intervals_distance_bool (x a b : Hash) :
  valid x -> valid a -> valid b ->
  InRangeExclusive x (Some a) (Some b) =
    (0 <? Distance a (Some x)) && (Distance a (Some x) <? Distance a (Some b))
  /\
  InRange x (Some a) (Some b) =
    (if Distance a (Some b) =? 0 then negb (Distance a (Some x) =? 0)
     else (0 <? Distance a (Some x)) &&
          (Distance a (Some x) <=? Distance a (Some b))).
Proof.
  unfold valid. intros Hx Ha Hb. rewrite !Distance_value.
  unfold InRange, InRangeExclusive, Equal, Less. by_compare.
Qed.

(** X7. Both intervals in terms of the clockwise distance from [a]:
    [x] is in [(a, b)] when it is nearer than [b] and is not [a]; for
    [a <> b] it is in [(a, b]] when it is no farther than [b] and is not
    [a]. *)
Theorem intervals_by_distance (x a b : Hash) :
  valid x -> valid a -> valid b ->
  InRangeExclusive x (Some a) (Some b) =
    (0 <? Distance a (Some x)) && (Distance a (Some x) <? Distance a (Some b))
  /\
  InRange x (Some a) (Some b) =
    (if Distance a (Some b) =? 0 then negb (Distance a (Some x) =? 0)
     else (0 <? Distance a (Some x)) &&
          (Distance a (Some x) <=? Distance a (Some b))).
Proof. exact (intervals_distance_bool x a b). Qed.

Lemma intervals_by_distance_witness :
  InRangeExclusive (mkHash 5) (Some (mkHash 200)) (Some (mkHash 10)) =
    (0 <? Distance (mkHash 200) (Some (mkHash 5))) &&
    (Distance (mkHash 200) (Some (mkHash 5)) <?
     Distance (mkHash 200) (Some (mkHash 10)))
  /\
  InRange (mkHash 5) (Some (mkHash 200)) (Some (mkHash 10)) =
    (if Distance (mkHash 200) (Some (mkHash 10)) =? 0
     then negb (Distance (mkHash 200) (Some (mkHash 5)) =? 0)
     else (0 <? Distance (mkHash 200) (Some (mkHash 5))) &&
          (Distance (mkHash 200) (Some (mkHash 5)) <=?
           Distance (mkHash 200) (Some (mkHash 10)))).
Proof.
  apply (intervals_by_distance (mkHash 5) (mkHash 200) (mkHash 10));
    unfold valid; simpl; lia.
Defined.

Lemma Distance_rotate (a x : Hash) (v : Z) :
  valid a -> valid x ->
  Distance (Add a v) (Some (Add x v)) = Distance a (Some x).
Proof.
  intros Ha Hx. rewrite !Distance_mod by (assumption || apply Add_valid).
  rewrite !Add_value, <- Zminus_mod. f_equal. lia.
Qed.

(** X8. Containment does not depend on where zero is: turning the three
    identifiers by the same amount [v] changes neither test. *)
Theorem intervals_rotate (x a b : Hash) (v : Z) :
  valid x -> valid a -> valid b ->
  InRange (Add x v) (Some (Add a v)) (Some (Add b v)) =
    InRange x (Some a) (Some b) /\
  InRangeExclusive (Add x v) (Some (Add a v)) (Some (Add b v)) =
    InRangeExclusive x (Some a) (Some b).
Proof.
  intros Hx Ha Hb.
  destruct (intervals_distance_bool x a b Hx Ha Hb) as [He Hi].
  destruct (intervals_distance_bool (Add x v) (Add a v) (Add b v)
              (Add_valid x v) (Add_valid a v) (Add_valid b v)) as [He' Hi'].
  rewrite He, Hi, He', Hi', !Distance_rotate by assumption.
  split; reflexivity.
Qed.

Lemma intervals_rotate_witness :
  let v := 2 ^ 160 - 200 in
  InRange (Add (mkHash 250) v) (Some (Add (mkHash 190) v))
          (Some (Add (mkHash 3) v)) =
    InRange (mkHash 250) (Some (mkHash 190)) (Some (mkHash 3)) /\
  InRangeExclusive (Add (mkHash 250) v) (Some (Add (mkHash 190) v))
          (Some (Add (mkHash 3) v)) =
    InRangeExclusive (mkHash 250) (Some (mkHash 190)) (Some (mkHash 3)).
Proof.
  intros v.
  apply (intervals_rotate (mkHash 250) (mkHash 190) (mkHash 3) v);
    unfold valid; simpl; lia.
Defined.

Lemma FingerStart_Add (n : Hash) (i : Z) :
  1 <= i <= 160 -> FingerStart n i = Add n (2 ^ (i - 1)).
Proof.
  intros Hi. unfold FingerStart, AddPowerOfTwo, M.
  destruct (Z.leb_spec i 0); [lia |].
  destruct (Z.gtb_spec i 160); [lia |].
  destruct (Z.ltb_spec (i - 1) 0); [lia |].
  destruct (Z.geb_spec (i - 1) 160); [lia |].
  cbn [orb]. rewrite Z.shiftl_1_l. reflexivity.
Qed.

Lemma pow2_below_ring (k : Z) : 0 <= k < 160 -> 0 < 2 ^ k < 2 ^ 160.
Proof.
  intros Hk. split.
  - apply Z.pow_pos_nonneg; lia.
  - apply Z.pow_lt_mono_r; lia.
Qed.

Lemma FingerStart_pow_away (n : Hash) (i : Z) :
  valid n -> 1 <= i <= 160 ->
  Distance n (Some (FingerStart n i)) = 2 ^ (i - 1).
Proof.
  intros Hn Hi. pose proof (pow2_below_ring (i - 1) ltac:(lia)) as Hp.
  rewrite FingerStart_Add, Distance_mod_Add by assumption.
  apply Z.mod_small. lia.
Qed.

(** X9. The start of finger [i] lies exactly [2^(i-1)] clockwise of the
    node, so it is never the node itself, and two consecutive starts are
    [2^(i-2)] apart. *)
Theorem FingerStart_distance (n : Hash) (i : Z) :
  valid n -> 1 <= i <= 160 ->
  Distance n (Some (FingerStart n i)) = 2 ^ (i - 1) /\
  Equal (FingerStart n i) (Some n) = false /\
  (2 <= i ->
   Distance (FingerStart n (i - 1)) (Some (FingerStart n i)) = 2 ^ (i - 2)).
Proof.
  intros Hn Hi. pose proof (pow2_below_ring (i - 1) ltac:(lia)) as Hp.
  pose proof (FingerStart_pow_away n i Hn Hi) as Hd.
  split; [exact Hd | split].
  - destruct (Equal (FingerStart n i) (Some n)) eqn:He; [| reflexivity].
    apply Equal_true in He.
    rewrite Distance_value, He, Z.ltb_irrefl, Z.sub_diag in Hd. lia.
  - intros Hi2. pose proof (pow2_below_ring (i - 2) ltac:(lia)) as Hq.
    rewrite !FingerStart_Add by lia.
    rewrite Distance_mod by apply Add_valid.
    rewrite !Add_value, <- Zminus_mod.
    replace (i - 1 - 1) with (i - 2) by lia.
    replace (i - 1) with (Z.succ (i - 2)) by lia.
    rewrite Z.pow_succ_r by lia.
    replace (value n + 2 * 2 ^ (i - 2) - (value n + 2 ^ (i - 2)))
      with (2 ^ (i - 2)) by lia.
    apply Z.mod_small. lia.
Qed.

Lemma FingerStart_distance_witness :
  Distance (mkHash 100) (Some (FingerStart (mkHash 100) 8)) = 2 ^ (8 - 1) /\
  Equal (FingerStart (mkHash 100) 8) (Some (mkHash 100)) = false /\
  Distance (FingerStart (mkHash 100) (8 - 1)) (Some (FingerStart (mkHash 100) 8))
  = 2 ^ (8 - 2).
Proof.
  assert (valid (mkHash 100)) as Hn by (unfold valid; simpl; lia).
  destruct (FingerStart_distance (mkHash 100) 8 Hn ltac:(lia)) as [H1 [H2 H3]].
  split; [exact H1 | split; [exact H2 | apply H3; lia]].
Defined.

(** X10. The finger starts go round the ring in order: the start of an
    earlier finger is strictly between the node and the start of a later
    one. *)
Theorem FingerStart_ordered (n : Hash) (i j : Z) :
  valid n -> 1 <= i -> i < j -> j <= 160 ->
  InRangeExclusive (FingerStart n i) (Some n) (Some (FingerStart n j)) = true.
Proof.
  intros Hn Hi Hij Hj.
  assert (forall k, 1 <= k <= 160 -> valid (FingerStart n k)) as Hv.
  { intros k Hk. rewrite FingerStart_Add by assumption. apply Add_valid. }
  rewrite (proj1 (intervals_distance_bool _ _ _
                    (Hv i ltac:(lia)) Hn (Hv j ltac:(lia)))).
  rewrite (FingerStart_pow_away n i Hn ltac:(lia)).
  rewrite (FingerStart_pow_away n j Hn ltac:(lia)).
  pose proof (pow2_below_ring (i - 1) ltac:(lia)).
  assert (2 ^ (i - 1) < 2 ^ (j - 1)) by (apply Z.pow_lt_mono_r; lia).
  by_compare.
Qed.

Lemma FingerStart_ordered_witness :
  InRangeExclusive (FingerStart (mkHash (2 ^ 160 - 1)) 3)
    (Some (mkHash (2 ^ 160 - 1)))
    (Some (FingerStart (mkHash (2 ^ 160 - 1)) 160)) = true.
Proof.
  apply (FingerStart_ordered (mkHash (2 ^ 160 - 1)) 3 160);
    unfold valid; simpl; lia.
Defined.

(** X11. Two additions in a row are one addition of the sum, a multiple
    of [2^160] adds nothing, and adding zero to an identifier gives it
    back. *)
Theorem Add_compose (h : Hash) (u v k : Z) :
  Add (Add h u) v = Add h (u + v) /\
  Add h (v + k * 2 ^ 160) = Add h v /\
  (valid h -> Add h 0 = h).
Proof.
  repeat match goal with |- _ /\ _ => split end.
  - apply Hash_eq. rewrite !Add_value, Zplus_mod_idemp_l. f_equal. lia.
  - apply Hash_eq. rewrite !Add_value.
    replace (value h + (v + k * 2 ^ 160)) with (value h + v + k * 2 ^ 160)
      by lia.
    apply Z.mod_add. pose proof ring_pos. lia.
  - intros Hh. apply Hash_eq. rewrite Add_value, Z.add_0_r.
    apply Z.mod_small, Hh.
Qed.

Lemma Add_compose_witness :
  Add (Add (mkHash 7) 5) (-9) = Add (mkHash 7) (5 + -9) /\
  Add (mkHash 7) (5 + 2 * 2 ^ 160) = Add (mkHash 7) 5 /\
  Add (mkHash 7) 0 = mkHash 7.
Proof.
  destruct (Add_compose (mkHash 7) 5 (-9) 2) as [H1 [_ _]].
  destruct (Add_compose (mkHash 7) 5 5 2) as [_ [H2 H3]].
  split; [exact H1 | split; [exact H2 | apply H3]].
  unfold valid; simpl; lia.
Defined.

(** X12. [Equal] holds exactly between hashes of the same value, and of
    two hashes exactly one of [a < b], [a = b], [b < a] holds; [nil] is
    neither equal to nor above any hash. *)
Theorem compare_trichotomy (a b : Hash) :
  (Equal a (Some b) = true <-> a = b) /\
  Equal a (Some b) = Equal b (Some a) /\
  Less a (Some b) = negb (Equal a (Some b) || Less b (Some a)) /\
  Equal a None = false /\ Less a None = false.
Proof.
  repeat match goal with |- _ /\ _ => split end; try reflexivity.
  - split.
    + intros H. apply Hash_eq, Equal_true, H.
    + intros ->. apply Equal_refl.
  - unfold Equal. by_compare.
  - unfold Equal, Less. by_compare.
Qed.

(** * Conversions: hexadecimal text and bytes *)

Section Digits.

Variable base : Z.
Hypothesis base_ge_2 : 2 <= base.

Lemma digits_acc_value (fuel : nat) :
  forall (n : Z) (acc : list Z),
    0 <= n < 2 ^ Z.of_nat fuel ->
    big.from_digits base (big.digits_acc base fuel n acc) 0 =
    big.from_digits base acc n.
Proof.
  induction fuel as [| fuel IH]; intros n acc Hn.
  - cbn in Hn. assert (n = 0) as -> by lia. reflexivity.
  - cbn [big.digits_acc]. destruct (Z.eqb_spec n 0) as [-> | Hn0];
      [reflexivity |].
    rewrite Nat2Z.inj_succ, Z.pow_succ_r in Hn by lia.
    rewrite IH.
    + unfold big.from_digits. cbn [fold_left]. f_equal.
      rewrite (Z.div_mod n base) at 3 by lia. lia.
    + split; [apply Z.div_pos; lia |].
      apply Z.div_lt_upper_bound; [lia |].
      assert (0 < 2 ^ Z.of_nat fuel) by (apply Z.pow_pos_nonneg; lia). nia.
Qed.

Lemma digits_acc_range (fuel : nat) :
  forall (n : Z) (acc : list Z),
    Forall (fun d => 0 <= d < base) acc ->
    Forall (fun d => 0 <= d < base) (big.digits_acc base fuel n acc).
Proof.
  induction fuel as [| fuel IH]; intros n acc Hacc; cbn [big.digits_acc].
  - exact Hacc.
  - destruct (n =? 0); [exact Hacc |].
    apply IH. constructor; [apply Z.mod_pos_bound; lia | exact Hacc].
Qed.

Lemma digits_acc_grows (fuel : nat) :
  forall (n : Z) (acc : list Z),
    (List.length acc <= List.length (big.digits_acc base fuel n acc))%nat.
Proof.
  induction fuel as [| fuel IH]; intros n acc; cbn [big.digits_acc].
  - lia.
  - destruct (n =? 0); [lia |].
    specialize (IH (n / base) (n mod base :: acc)). cbn [List.length] in IH.
    lia.
Qed.

Lemma digits_acc_length_le (fuel : nat) :
  forall (n : Z) (acc : list Z) (k : nat),
    0 <= n < base ^ Z.of_nat k ->
    (List.length (big.digits_acc base fuel n acc) <= k + List.length acc)%nat.
Proof.
  induction fuel as [| fuel IH]; intros n acc k Hn; cbn [big.digits_acc].
  - lia.
  - destruct (Z.eqb_spec n 0) as [-> | Hn0]; [lia |].
    destruct k as [| k]; [cbn in Hn; lia |].
    rewrite Nat2Z.inj_succ, Z.pow_succ_r in Hn by lia.
    specialize (IH (n / base) (n mod base :: acc) k).
    cbn [List.length] in IH.
    assert (0 <= n / base < base ^ Z.of_nat k) as Hq.
    { split; [apply Z.div_pos; lia |].
      apply Z.div_lt_upper_bound; lia. }
    specialize (IH Hq). lia.
Qed.

Lemma digits_acc_length_ge (fuel : nat) :
  forall (n : Z) (acc : list Z) (k : nat),
    base ^ Z.of_nat k <= n -> n < 2 ^ Z.of_nat fuel ->
    (k + 1 + List.length acc <=
     List.length (big.digits_acc base fuel n acc))%nat.
Proof.
  induction fuel as [| fuel IH]; intros n acc k Hk Hn.
  - assert (0 < base ^ Z.of_nat k) by (apply Z.pow_pos_nonneg; lia).
    cbn in Hn. lia.
  - assert (0 < base ^ Z.of_nat k) by (apply Z.pow_pos_nonneg; lia).
    cbn [big.digits_acc]. destruct (Z.eqb_spec n 0) as [-> | Hn0]; [lia |].
    rewrite Nat2Z.inj_succ, Z.pow_succ_r in Hn by lia.
    assert (n / base < 2 ^ Z.of_nat fuel) as Hq.
    { apply Z.div_lt_upper_bound; [lia |].
      assert (0 < 2 ^ Z.of_nat fuel) by (apply Z.pow_pos_nonneg; lia). nia. }
    destruct k as [| k].
    + pose proof (digits_acc_grows fuel (n / base) (n mod base :: acc)) as Hg.
      cbn [List.length] in Hg. lia.
    + rewrite Nat2Z.inj_succ, Z.pow_succ_r in Hk by lia.
      specialize (IH (n / base) (n mod base :: acc) k).
      cbn [List.length] in IH.
      assert (base ^ Z.of_nat k <= n / base) as Hlo
          by (apply Z.div_le_lower_bound; lia).
      specialize (IH Hlo Hq). lia.
Qed.

Lemma digits_fuel (n : Z) :
  0 <= n -> n < 2 ^ Z.of_nat (Z.to_nat (Z.log2 n + 1)).
Proof.
  intros Hn. pose proof (Z.log2_nonneg n).
  rewrite Z2Nat.id by lia.
  destruct (Z.eq_dec n 0) as [-> | Hn0]; [reflexivity |].
  apply Z.log2_spec. lia.
Qed.

Lemma digits_value (n : Z) :
  0 <= n -> big.from_digits base (big.digits base n) 0 = n.
Proof.
  intros Hn. unfold big.digits.
  rewrite digits_acc_value by (split; [exact Hn | apply digits_fuel, Hn]).
  reflexivity.
Qed.

Lemma digits_range (n : Z) :
  Forall (fun d => 0 <= d < base) (big.digits base n).
Proof. apply digits_acc_range. constructor. Qed.

Lemma digits_length_le (n : Z) (k : nat) :
  0 <= n < base ^ Z.of_nat k -> (List.length (big.digits base n) <= k)%nat.
Proof.
  intros Hn. unfold big.digits.
  pose proof (digits_acc_length_le (Z.to_nat (Z.log2 n + 1)) n [] k Hn) as H.
  cbn [List.length] in H. lia.
Qed.

Lemma digits_length_ge (n : Z) (k : nat) :
  base ^ Z.of_nat k <= n -> (k + 1 <= List.length (big.digits base n))%nat.
Proof.
  intros Hk. unfold big.digits.
  assert (0 < base ^ Z.of_nat k) by (apply Z.pow_pos_nonneg; lia).
  pose proof (digits_acc_length_ge (Z.to_nat (Z.log2 n + 1)) n [] k Hk
                (digits_fuel n ltac:(lia))) as H'.
  cbn [List.length] in H'. lia.
Qed.

End Digits.

Lemma hex_digit_cases (d : Z) :
  0 <= d < 16 ->
  In d [0; 1; 2; 3; 4; 5; 6; 7; 8; 9; 10; 11; 12; 13; 14; 15].
Proof. intros Hd. cbn [In]. lia. Qed.

Lemma digit_val_char (d : Z) :
  0 <= d < 16 -> big.digit_val (big.digit_char d) = Some d.
Proof.
  intros Hd. apply hex_digit_cases in Hd. cbn [In] in Hd.
  repeat (destruct Hd as [<- | Hd]; [reflexivity |]). contradiction.
Qed.

Lemma scan_sign_char (d : Z) (r : string) :
  0 <= d < 16 ->
  big.scan_sign (String (big.digit_char d) r) =
  (false, String (big.digit_char d) r).
Proof.
  intros Hd. apply hex_digit_cases in Hd. cbn [In] in Hd.
  repeat (destruct Hd as [<- | Hd]; [reflexivity |]). contradiction.
Qed.

Lemma scan_digits_chars (ds : list Z) :
  forall acc : Z,
    Forall (fun d => 0 <= d < 16) ds ->
    big.scan_digits 16 acc (string_of_list_ascii (map big.digit_char ds)) =
    Some (big.from_digits 16 ds acc).
Proof.
  induction ds as [| d ds IH]; intros acc Hds.
  - reflexivity.
  - inversion Hds as [| ? ? Hd Hds']; subst.
    cbn [map string_of_list_ascii big.scan_digits].
    rewrite digit_val_char by exact Hd.
    destruct (Z.ltb_spec d 16); [| lia].
    rewrite IH by exact Hds'. reflexivity.
Qed.

Lemma hex_text_parses (n : Z) :
  0 < n ->
  let s := string_of_list_ascii (map big.digit_char (big.digits 16 n)) in
  s <> EmptyString /\ big.scan_sign s = (false, s) /\
  big.scan_digits 16 0 s = Some n.
Proof.
  intros Hn s.
  pose proof (digits_range 16 ltac:(lia) n) as Hr.
  pose proof (digits_value 16 ltac:(lia) n ltac:(lia)) as Hv.
  pose proof (digits_length_ge 16 ltac:(lia) n 0 ltac:(cbn; lia)) as Hl.
  assert (big.scan_digits 16 0 s = Some n) as Hs
      by (unfold s; rewrite scan_digits_chars, Hv by exact Hr; reflexivity).
  unfold s in *. destruct (big.digits 16 n) as [| d ds].
  - cbn in Hl. lia.
  - inversion Hr as [| ? ? Hd _]; subst.
    cbn [map string_of_list_ascii] in *.
    repeat split; [discriminate | apply scan_sign_char, Hd | exact Hs].
Qed.

Lemma SetString_Text (v : Z) : big.SetString (big.Text v 16) 16 = Some v.
Proof.
  unfold big.Text. destruct (Z.eqb_spec v 0) as [-> | Hv0]; [reflexivity |].
  destruct (hex_text_parses (Z.abs v) ltac:(lia)) as [Hne [Hsign Hscan]].
  cbv zeta in *.
  destruct (string_of_list_ascii (map big.digit_char (big.digits 16 (Z.abs v))))
    as [| c r] eqn:Hs; [contradiction |].
  unfold big.SetString. destruct (Z.ltb_spec v 0).
  - cbn [big.scan_sign]. rewrite Hscan. f_equal. lia.
  - rewrite Hsign, Hscan. f_equal. lia.
Qed.

Lemma string_of_list_length (l : list ascii) :
  String.length (string_of_list_ascii l) = List.length l.
Proof. induction l as [| c l IH]; cbn; [| rewrite IH]; reflexivity. Qed.

Lemma Text_length (v : Z) (k : nat) :
  0 < v ->
  (v < 16 ^ Z.of_nat k -> (String.length (big.Text v 16) <= k)%nat) /\
  (16 ^ Z.of_nat k <= v -> (k + 1 <= String.length (big.Text v 16))%nat).
Proof.
  intros Hv. unfold big.Text.
  destruct (Z.eqb_spec v 0); [lia |]. destruct (Z.ltb_spec v 0); [lia |].
  rewrite string_of_list_length, length_map, Z.abs_eq by lia. split; intros H'.
  - apply digits_length_le; lia.
  - apply digits_length_ge; lia.
Qed.

Lemma NewHashFromHex_String (h : Hash) :
  NewHashFromHex (Hash_String h) = (Some (Copy h), None).
Proof.
  unfold NewHashFromHex, Hash_String. rewrite SetString_Text. reflexivity.
Qed.

Lemma NewHashFromHex_String_valid (h : Hash) :
  valid h -> NewHashFromHex (Hash_String h) = (Some h, None).
Proof.
  intros Hv. rewrite NewHashFromHex_String. unfold Copy.
  rewrite NewHash_fix by exact Hv. reflexivity.
Qed.

Lemma ParseNodeID_of_String (h : Hash) :
  valid h -> ParseNodeID (Hash_String h) = (Some h, None).
Proof.
  intros Hv. unfold ParseNodeID.
  rewrite (NewHashFromHex_String_valid h Hv). reflexivity.
Qed.

(** X13. An identifier written by [String] and read back by
    [NewHashFromHex] is the same identifier; for any hash the reading
    gives its reduction into the ring. *)
Theorem hex_round_trip (h : Hash) :
  NewHashFromHex (Hash_String h) = (Some (Copy h), None) /\
  (valid h -> NewHashFromHex (Hash_String h) = (Some h, None)).
Proof.
  split; [apply NewHashFromHex_String | apply NewHashFromHex_String_valid].
Qed.

Lemma hex_round_trip_witness :
  NewHashFromHex (Hash_String (mkHash 11259375)) =
  (Some (mkHash 11259375), None).
Proof.
  refine (proj2 (hex_round_trip (mkHash 11259375)) _).
  unfold valid; simpl; lia.
Defined.

(** X14. [ParseNodeID] reads the text of an identifier back as that
    identifier. *)
Theorem ParseNodeID_String (h : Hash) :
  valid h -> ParseNodeID (Hash_String h) = (Some h, None).
Proof. exact (ParseNodeID_of_String h). Qed.

Lemma ParseNodeID_String_witness :
  ParseNodeID (Hash_String (mkHash 291)) = (Some (mkHash 291), None).
Proof.
  apply (ParseNodeID_String (mkHash 291)). unfold valid; simpl; lia.
Defined.

(** X15. The text of an identifier has between 1 and 40 characters. *)
Theorem String_length (h : Hash) :
  valid h ->
  (1 <= String.length (Hash_String h) <= 40)%nat.
Proof.
  unfold valid, Hash_String. intros Hv.
  destruct (Z.eq_dec (value h) 0) as [-> | Hn0]; [cbn; lia |].
  split.
  - apply (proj2 (Text_length (value h) 0 ltac:(lia))). cbn. lia.
  - apply (proj1 (Text_length (value h) 40 ltac:(lia))).
    change (16 ^ Z.of_nat 40) with (2 ^ 160). lia.
Qed.

Lemma String_length_witness :
  (1 <= String.length (Hash_String (mkHash (2 ^ 160 - 1))) <= 40)%nat.
Proof.
  apply (String_length (mkHash (2 ^ 160 - 1))). unfold valid; simpl; lia.
Defined.

Lemma byte_val_of_Z (d : Z) : 0 <= d < 256 -> byte_val (byte_of_Z d) = d.
Proof.
  intros Hd. unfold byte_val, byte_of_Z. rewrite Z.mod_small by exact Hd.
  destruct (Byte.of_N (Z.to_N d)) as [b |] eqn:Hb.
  - apply Byte.to_of_N in Hb. rewrite Hb. apply Z2N.id. lia.
  - apply Byte.of_N_None_iff in Hb. lia.
Qed.

Lemma SetBytes_of_digits (ds : list Z) :
  forall acc : Z,
    Forall (fun d => 0 <= d < 256) ds ->
    fold_left (fun a b => a * 256 + byte_val b) (map byte_of_Z ds) acc =
    big.from_digits 256 ds acc.
Proof.
  induction ds as [| d ds IH]; intros acc Hds.
  - reflexivity.
  - inversion Hds as [| ? ? Hd Hds']; subst.
    cbn [map fold_left]. rewrite byte_val_of_Z by exact Hd.
    rewrite IH by exact Hds'. reflexivity.
Qed.

(** X16. The bytes of an identifier are at most 20, and reading them
    back as a big-endian integer gives the identifier. *)
Theorem bytes_round_trip (h : Hash) :
  valid h ->
  (List.length (Hash_Bytes h) <= 20)%nat /\
  big.SetBytes (Hash_Bytes h) = value h /\
  NewHash (Some (big.SetBytes (Hash_Bytes h))) = h.
Proof.
  intros Hv. pose proof Hv as [Hlo Hhi].
  assert (big.SetBytes (Hash_Bytes h) = value h) as Heq.
  { unfold big.SetBytes, Hash_Bytes, big.Bytes.
    rewrite SetBytes_of_digits by (apply digits_range; lia).
    rewrite Z.abs_eq by exact Hlo. apply digits_value; lia. }
  repeat match goal with |- _ /\ _ => split end.
  - unfold Hash_Bytes, big.Bytes. rewrite length_map, Z.abs_eq by exact Hlo.
    apply digits_length_le; [lia |].
    change (256 ^ Z.of_nat 20) with (2 ^ 160). lia.
  - exact Heq.
  - rewrite Heq. apply NewHash_fix, Hv.
Qed.

Lemma bytes_round_trip_witness :
  (List.length (Hash_Bytes (mkHash 65536)) <= 20)%nat /\
  big.SetBytes (Hash_Bytes (mkHash 65536)) = 65536 /\
  NewHash (Some (big.SetBytes (Hash_Bytes (mkHash 65536)))) = mkHash 65536.
Proof.
  apply (bytes_round_trip (mkHash 65536)). unfold valid; simpl; lia.
Defined.

Lemma substring_length (s : string) :
  forall n : nat,
    (n <= String.length s)%nat -> String.length (substring 0 n s) = n.
Proof.
  induction s as [| c s IH]; intros n Hn.
  - cbn in Hn. assert (n = 0%nat) as -> by lia. reflexivity.
  - destruct n as [| n]; [reflexivity |].
    cbn [substring String.length] in *. rewrite IH by lia. reflexivity.
Qed.

Lemma substring_prefix (s : string) :
  forall n : nat, String.prefix (substring 0 n s) s = true.
Proof.
  induction s as [| c s IH]; intros n.
  - destruct n; reflexivity.
  - destruct n as [| n]; [reflexivity |].
    cbn [substring String.prefix].
    destruct (ascii_dec c c) as [_ | Hc]; [apply IH | contradiction].
Qed.

Lemma slice_to_spec (s : string) (n : nat) :
  ((String.length s < n)%nat -> slice_to s n = None) /\
  ((n <= String.length s)%nat ->
   exists p, slice_to s n = Some p /\ String.length p = n /\
             String.prefix p s = true).
Proof.
  unfold slice_to. destruct (Nat.leb_spec n (String.length s)); split;
    intros H'; try lia; try reflexivity.
  eexists. split; [reflexivity |].
  split; [apply substring_length; lia | apply substring_prefix].
Qed.

Lemma Hash_String_short (h : Hash) (k : nat) :
  valid h -> (1 <= k)%nat ->
  ((String.length (Hash_String h) <= k)%nat <-> value h < 16 ^ Z.of_nat k).
Proof.
  unfold valid, Hash_String. intros Hv Hk.
  assert (1 < 16 ^ Z.of_nat k) by (apply Z.pow_gt_1; lia).
  destruct (Z.eq_dec (value h) 0) as [-> | Hn0].
  - cbn [big.Text Z.eqb String.length]. split; intros; lia.
  - pose proof (Text_length (value h) k ltac:(lia)) as [Hle Hge].
    split; [| exact Hle].
    intros Hlen. destruct (Z.lt_ge_cases (value h) (16 ^ Z.of_nat k)) as [| Hb];
      [assumption |]. apply Hge in Hb. lia.
Qed.

(** X17. [getNodeIDString] answers ["nil"] for no descriptor; for a
    descriptor it panics when the identifier is below [16^7] (its text
    has fewer than 8 characters) and otherwise returns the first 8
    characters of the text. *)
Theorem getNodeIDString_cases (nodeInfo : chord.NodeInfo) :
  valid (chord.ID nodeInfo) ->
  getNodeIDString None = Returned "nil"%string /\
  (value (chord.ID nodeInfo) < 16 ^ 7 ->
   getNodeIDString (Some nodeInfo) = Panicked) /\
  (16 ^ 7 <= value (chord.ID nodeInfo) ->
   exists p, getNodeIDString (Some nodeInfo) = Returned p /\
             String.length p = 8%nat /\
             String.prefix p (Hash_String (chord.ID nodeInfo)) = true).
Proof.
  intros Hv. split; [reflexivity |].
  pose proof (Hash_String_short (chord.ID nodeInfo) 7 Hv ltac:(lia)) as Hs.
  pose proof (slice_to_spec (Hash_String (chord.ID nodeInfo)) 8) as [Hno Hyes].
  unfold getNodeIDString. split; intros Hid.
  - rewrite Hno; [reflexivity |]. apply Hs in Hid. lia.
  - destruct Hyes as [p [Hp Hrest]].
    + destruct (Nat.le_gt_cases 8 (String.length (Hash_String (chord.ID nodeInfo))))
        as [| Hlt]; [assumption |].
      assert (String.length (Hash_String (chord.ID nodeInfo)) <= 7)%nat as Hle
          by lia.
      apply Hs in Hle. change (Z.of_nat 7) with 7 in Hle. lia.
    + rewrite Hp. exists p. split; [reflexivity | exact Hrest].
Qed.

Lemma getNodeIDString_cases_witness :
  getNodeIDString (Some (chord.mkNodeInfo (mkHash 11259375) "a:1")) = Panicked
  /\
  exists p,
    getNodeIDString (Some (chord.mkNodeInfo (mkHash (16 ^ 9)) "b:1")) =
    Returned p /\
    String.length p = 8%nat /\
    String.prefix p (Hash_String (mkHash (16 ^ 9))) = true.
Proof.
  split.
  - refine (proj1 (proj2 (getNodeIDString_cases
                            (chord.mkNodeInfo (mkHash 11259375) "a:1") _)) _);
      unfold valid; simpl; lia.
  - refine (proj2 (proj2 (getNodeIDString_cases
                            (chord.mkNodeInfo (mkHash (16 ^ 9)) "b:1") _)) _);
      unfold valid; simpl; lia.
Defined.

Lemma scan_digits_10_16 (s : string) :
  forall (a a' v : Z),
    big.scan_digits 10 a s = Some v ->
    exists w, big.scan_digits 16 a' s = Some w.
Proof.
  induction s as [| c s IH]; intros a a' v Hv; cbn [big.scan_digits] in *.
  - eexists. reflexivity.
  - destruct (big.digit_val c) as [d |]; [| discriminate].
    destruct (Z.ltb_spec d 10); [| discriminate].
    destruct (Z.ltb_spec d 16); [| lia].
    exact (IH _ _ _ Hv).
Qed.

Lemma ParseInt_SetString (s : string) (v : Z) :
  strconv.ParseInt s 10 = Some v -> exists w, big.SetString s 16 = Some w.
Proof.
  unfold strconv.ParseInt, big.SetString.
  destruct (big.scan_sign s) as [neg ds]. destruct ds as [| c r];
    [discriminate |].
  destruct (big.scan_digits 10 0 (String c r)) as [un |] eqn:Hun;
    [| discriminate].
  intros _. destruct (scan_digits_10_16 _ 0 0 un Hun) as [w Hw].
  rewrite Hw. eexists. reflexivity.
Qed.

Lemma ParseNodeID_by_hex (idStr : string) :
  ParseNodeID idStr =
    match big.SetString idStr 16 with
    | Some w => (Some (NewHash (Some w)), None)
    | None => (Some (NewHashFromString idStr), None)
    end.
Proof.
  unfold ParseNodeID, NewHashFromHex.
  destruct (big.SetString idStr 16) as [w |] eqn:Hhex; [reflexivity |].
  destruct (strconv.ParseInt idStr 10) as [v |] eqn:Hdec; [| reflexivity].
  destruct (ParseInt_SetString idStr v Hdec) as [w Hw]. congruence.
Qed.

(** X18. The decimal branch of [ParseNodeID] is never taken: a string
    that [strconv.ParseInt] accepts is accepted as hexadecimal first.
    So the result is the hexadecimal value when there is one and the
    SHA-1 identifier of the string otherwise; ["123"] is 0x123. *)
Theorem ParseNodeID_hex_first (idStr : string) :
  ParseNodeID idStr =
    match big.SetString idStr 16 with
    | Some w => (Some (NewHash (Some w)), None)
    | None => (Some (NewHashFromString idStr), None)
    end /\
  ParseNodeID "123" = (Some (mkHash 291), None).
Proof.
  split; [apply ParseNodeID_by_hex | reflexivity].
Qed.

Lemma String_eqb_false (s : string) :
  s <> EmptyString -> String.eqb s "" = false.
Proof. intros Hs. apply String.eqb_neq, Hs. Qed.

(** X19. Start-up of the node command stops for an empty address only:
    an [--id] never makes it exit with [Invalid node ID].  But an
    [--id] that is a hexadecimal number below [16^15] makes it panic at
    its first log line, which takes 16 characters of the identifier. *)
Theorem main_identity_outcome (addr publicAddr nodeID : string) :
  (forall msg, main_identity addr publicAddr nodeID = Fatal msg ->
               addr = EmptyString) /\
  (forall v,
      addr <> EmptyString -> nodeID <> EmptyString ->
      big.SetString nodeID 16 = Some v -> 0 <= v < 16 ^ 15 ->
      main_identity addr publicAddr nodeID = Panicked).
Proof.
  split.
  - intros msg. unfold main_identity.
    destruct (String.eqb_spec addr ""); [intros _; assumption |].
    destruct (negb (nodeID =? "")%string).
    + rewrite ParseNodeID_by_hex.
      destruct (big.SetString nodeID 16);
        match goal with
        | |- context [slice_to ?t 16] => destruct (slice_to t 16)
        end; discriminate.
    + destruct (slice_to _ 16); discriminate.
  - intros v Haddr Hid Hhex Hv. unfold main_identity.
    rewrite (String_eqb_false addr Haddr), (String_eqb_false nodeID Hid).
    cbn [negb]. rewrite ParseNodeID_by_hex, Hhex.
    assert (16 ^ 15 < 2 ^ 160) as Hpow by reflexivity.
    assert (valid (mkHash v)) as Hvalid by (unfold valid; cbn [value]; lia).
    assert (NewHash (Some v) = mkHash v) as -> by (apply (NewHash_fix (mkHash v) Hvalid)).
    pose proof (proj2 (Hash_String_short (mkHash v) 15 Hvalid ltac:(lia)))
      as Hlen.
    rewrite (proj1 (slice_to_spec (Hash_String (mkHash v)) 16)); [reflexivity |].
    cbn [value] in Hlen. specialize (Hlen (proj2 Hv)). lia.
Qed.

Lemma main_identity_outcome_witness :
  main_identity "localhost:5000" "" "abc123" = Panicked.
Proof.
  refine (proj2 (main_identity_outcome "localhost:5000" "" "abc123")
            11256099 _ _ _ _); try discriminate; try reflexivity.
  simpl. lia.
Defined.

(** X20. Started without [--id], or with the text of an identifier of
    16 hexadecimal digits or more, the node command goes on with that
    identifier, advertises the public address if there is one and the
    listening address otherwise, and logs 16 characters. *)
Theorem main_identity_returns (addr publicAddr nodeID : string) (h : Hash) :
  addr <> EmptyString -> valid h -> 16 ^ 15 <= value h ->
  (nodeID = EmptyString /\
   h = GenerateID (if String.eqb publicAddr "" then addr else publicAddr))
  \/ nodeID = Hash_String h ->
  exists logged,
    main_identity addr publicAddr nodeID =
      Returned (h, if String.eqb publicAddr "" then addr else publicAddr,
                logged) /\
    String.length logged = 16%nat /\
    String.prefix logged (Hash_String h) = true.
Proof.
  intros Haddr Hv Hbig Hid.
  assert (16 <= String.length (Hash_String h))%nat as Hlen.
  { destruct (Nat.le_gt_cases 16 (String.length (Hash_String h)))
      as [| Hlt]; [assumption |].
    assert (String.length (Hash_String h) <= 15)%nat as Hle by lia.
    apply (Hash_String_short h 15 Hv ltac:(lia)) in Hle.
    change (Z.of_nat 15) with 15 in Hle. lia. }
  destruct (proj2 (slice_to_spec (Hash_String h) 16) Hlen) as [p [Hp Hrest]].
  exists p. split; [| exact Hrest].
  unfold main_identity. rewrite (String_eqb_false addr Haddr).
  destruct Hid as [[-> Hgen] | ->].
  - cbn [String.eqb]. destruct (publicAddr =? "")%string; cbn [negb];
      rewrite <- Hgen, Hp; reflexivity.
  - assert (Hash_String h <> EmptyString) as Hne
        by (intros He; rewrite He in Hlen; cbn in Hlen; lia).
    rewrite (String_eqb_false _ Hne). cbn [negb].
    rewrite (ParseNodeID_of_String h Hv), Hp.
    destruct (publicAddr =? "")%string; reflexivity.
Qed.

Lemma main_identity_returns_witness :
  exists logged,
    main_identity "0.0.0.0:5000" "10.0.0.1:5000" (Hash_String (mkHash (16 ^ 20)))
    = Returned (mkHash (16 ^ 20), "10.0.0.1:5000"%string, logged) /\
    String.length logged = 16%nat /\
    String.prefix logged (Hash_String (mkHash (16 ^ 20))) = true.
Proof.
  refine (main_identity_returns "0.0.0.0:5000" "10.0.0.1:5000"
            (Hash_String (mkHash (16 ^ 20))) (mkHash (16 ^ 20)) _ _ _ _).
  - discriminate.
  - unfold valid; simpl; lia.
  - simpl; lia.
  - right. reflexivity.
Defined.
